(** * partitionSync: the labeled stream synchronizer of thi.ng/transducers

    A shallow embedding of [partitionSync] (src/unnamed/part_004, the
    [xform/partition-sync.ts] transducer) and of its two helpers
    [requiredInputs] and [collect].

    Modelling conventions.
    - Labels ([PropertyKey]) are strings.  A JS object used as a tuple
      ([IObjectOf<T>]) is a finite map [gmap label T]; the two [Set]s
      ([ks], the required labels, and [currKeys]) are [gset label]; the
      backpressure [Map<PropertyKey, T[]>] is a [gmap label (list T)].
    - The closure variables [curr], [first], [currKeys] and [cache] form the
      record [state], threaded explicitly through the two functions of the
      returned reducer.  The label set [ks] is owned by the caller and read
      afresh by every call, so it is an argument of every step.
    - An object handed to the downstream [reduce] is never written again
      ([curr] is rebound to [{}] or to a copy right after), so emitted tuples
      are plain values.
    - The accumulator is opaque ([any] in the source): a type [Acc] with the
      predicate [isReduced].
    - [backPressure] is an integer. *)

From stdpp Require Import gmap strings list fin_maps pretty.
From Stdlib Require Import ZArith.

#[local] Set Warnings "-clear-no-such-hyp".
Local Open Scope Z_scope.

Abbreviation label := string (only parsing).

(** ** Configuration: [PartitionSyncOpts<T>] *)

Record PartitionSyncOpts (T : Type) := mkOpts {
  key : T → label;
  mergeOnly : bool;
  reset : bool;
  all : bool;
  backPressure : Z
}.
Arguments mkOpts {T}.
Arguments key {T}.
Arguments mergeOnly {T}.
Arguments reset {T}.
Arguments all {T}.
Arguments backPressure {T}.

(** The defaults merged under the user's options:
    [{ mergeOnly: false, reset: true, all: true, backPressure: 0 }]. *)
Definition defaultOpts {T} (k : T → label) : PartitionSyncOpts T :=
  mkOpts k false true true 0.

(** ** The reduction protocol [[init, complete, reduce]] *)

Record Reducer (A B : Type) := mkReducer {
  r_init : A;
  r_complete : A → A;
  r_reduce : A → B → A
}.
Arguments mkReducer {A B}.
Arguments r_init {A B}.
Arguments r_complete {A B}.
Arguments r_reduce {A B}.

(** ** Closure state of one synchronizer instance *)

Record state (T : Type) := mkState {
  curr : gmap label T;
  first : bool;
  currKeys : gset label;
  cache : gmap label (list T)
}.
Arguments mkState {T}.
Arguments curr {T}.
Arguments first {T}.
Arguments currKeys {T}.
Arguments cache {T}.

Definition initState {T} : state T := mkState ∅ true ∅ ∅.

(** ** Results of a call *)

Inductive exn :=
  | IllegalState (msg : string)   (* thrown by [illegalState(msg)] *)
  | NonNull.                      (* a non-null assertion [e!] met undefined *)

Inductive outcome (A : Type) :=
  | Ok (a : A)
  | Throw (e : exn)
  | OutOfFuel.                    (* the model's loop bound was too small *)
Arguments Ok {A}.
Arguments Throw {A}.
Arguments OutOfFuel {A}.

Inductive Mode := UnboundedLatest | BoundedFifo.

(** ** [requiredInputs] *)

Definition requiredInputs (required curr : gset label) : bool :=
  if decide (size curr < size required)%nat then false
  else forallb (λ id, bool_decide (id ∈ curr)) (elements required).

(** ** [collect]

    One round of the loop [for (let id of currKeys)]: the front of the
    label's queue goes into the tuple, and the label leaves [currKeys] when
    its queue became empty.  [None] when a non-null assertion of the source
    fails ([cache.get(id)!] or [slot.shift()!]); the callers then answer
    [Throw NonNull] paired with the state they were entered in. *)

Section Collect.
Context {T : Type}.

Definition collect_acc : Type := gmap label T * gmap label (list T) * gset label.

Definition collect_one (a : option collect_acc) (id : label) : option collect_acc :=
  match a with
  | None => None
  | Some (tup, cch, cks) =>
      match cch !! id with
      | Some (v :: slot) =>
          Some (<[id := v]> tup, <[id := slot]> cch,
                if decide (slot = []) then cks ∖ {[id]} else cks)
      | _ => None
      end
  end.

Definition collect_list (ids : list label) (a : option collect_acc) : option collect_acc :=
  foldl collect_one a ids.

Definition collect (cch : gmap label (list T)) (cks : gset label) : option collect_acc :=
  collect_list (elements cks) (Some (∅, cch, cks)).
End Collect.

(** ** The transducer *)

Section PartitionSync.
Context {T Acc : Type}.
Variable isReduced : Acc → bool.
Variable opts : PartitionSyncOpts T.
Variable rfn : Reducer Acc (gmap label T).

(** The test [mergeOnly || backPressure < 1] choosing the reducer. *)
Definition mode : Mode :=
  if mergeOnly opts || (backPressure opts <? 1) then UnboundedLatest else BoundedFifo.

(** *** First reducer (no caching) *)

Definition complete_latest (st : state T) (acc : Acc) : state T * outcome Acc :=
  if (reset opts && all opts && (0 <? size (currKeys st))%nat)
     || (negb (reset opts) && first st)
  then
    let acc := r_reduce rfn acc (curr st) in
    (mkState ∅ false ∅ (cache st), Ok (r_complete rfn acc))
  else (st, Ok (r_complete rfn acc)).

Definition reduce_latest (ks : gset label) (st : state T) (acc : Acc) (x : T)
    : state T * outcome Acc :=
  let k := key opts x in
  if bool_decide (k ∈ ks) then
    let curr1 := <[k := x]> (curr st) in
    let keys1 := {[k]} ∪ currKeys st in
    if mergeOnly opts || requiredInputs ks keys1 then
      let acc := r_reduce rfn acc curr1 in
      if reset opts
      then (mkState ∅ false ∅ (cache st), Ok acc)
      else (mkState curr1 false keys1 (cache st), Ok acc)
    else (mkState curr1 (first st) keys1 (cache st), Ok acc)
  else (st, Ok acc).

(** *** Second reducer (with back pressure / caching) *)

Definition complete_fifo (st : state T) (acc : Acc) : state T * outcome Acc :=
  if all opts && (0 <? size (currKeys st))%nat then
    match collect (cache st) (currKeys st) with
    | Some (tup, cch, _) =>
        let acc := r_reduce rfn acc tup in
        (mkState (curr st) (first st) ∅ cch, Ok (r_complete rfn acc))
    | None => (st, Throw NonNull)
    end
  else (st, Ok (r_complete rfn acc)).

(** [max back pressure (${backPressure}) exceeded for input: ${String(k)}] *)
Definition overflowMsg (k : label) : string :=
  "max back pressure (" +:+ pretty (backPressure opts)
    +:+ ") exceeded for input: " +:+ k.

(** The loop [while (requiredInputs(ks, currKeys)) { ... }], bounded by
    [fuel] rounds. *)
Fixpoint drain (fuel : nat) (ks : gset label) (st : state T) (acc : Acc)
    : state T * outcome Acc :=
  if requiredInputs ks (currKeys st) then
    match fuel with
    | O => (st, OutOfFuel)
    | S fuel' =>
        match collect (cache st) (currKeys st) with
        | Some (tup, cch, cks) =>
            let acc := r_reduce rfn acc tup in
            let st' := mkState (curr st) false cks cch in
            if isReduced acc then (st', Ok acc) else drain fuel' ks st' acc
        | None => (st, Throw NonNull)
        end
    end
  else (st, Ok acc).

Definition reduce_fifo (ks : gset label) (st : state T) (acc : Acc) (x : T)
    : state T * outcome Acc :=
  let k := key opts x in
  if bool_decide (k ∈ ks) then
    let slot := default [] (cache st !! k) in
    let cache1 :=
      match cache st !! k with
      | Some _ => cache st
      | None => <[k := []]> (cache st)
      end in
    if bool_decide (backPressure opts ≤ Z.of_nat (length slot)) then
      (mkState (curr st) (first st) (currKeys st) cache1,
       Throw (IllegalState (overflowMsg k)))
    else
      let slot' := slot ++ [x] in
      drain (S (length slot')) ks
        (mkState (curr st) (first st) ({[k]} ∪ currKeys st) (<[k := slot']> cache1))
        acc
  else (st, Ok acc).

(** *** The reducer returned by [partitionSync(keys, opts)] *)

Definition sync_complete (st : state T) (acc : Acc) : state T * outcome Acc :=
  match mode with
  | UnboundedLatest => complete_latest st acc
  | BoundedFifo => complete_fifo st acc
  end.

Definition sync_reduce (ks : gset label) (st : state T) (acc : Acc) (x : T)
    : state T * outcome Acc :=
  match mode with
  | UnboundedLatest => reduce_latest ks st acc x
  | BoundedFifo => reduce_fifo ks st acc x
  end.
End PartitionSync.

(** ** The caller

    Modelled from the spec: the driving iteration ([../iterator],
    [transduce]) is not part of the sources at hand.  Its calls on the
    reducer are taken as a list, in the order they are made: [Ingest x] for
    the reducing function, [Complete] for the completing one, and [SetKeys]
    for a write to the label set by its owner between two calls.  An
    exception ends the run. *)

Inductive call (T : Type) :=
  | Ingest (x : T)
  | Complete
  | SetKeys (ks : gset label).
Arguments Ingest {T}.
Arguments Complete {T}.
Arguments SetKeys {T}.

Section Caller.
Context {T Acc : Type}.
Variable isReduced : Acc → bool.
Variable opts : PartitionSyncOpts T.
Variable rfn : Reducer Acc (gmap label T).

Definition call1 (c : call T) (ks : gset label) (st : state T) (acc : Acc)
    : gset label * (state T * outcome Acc) :=
  match c with
  | Ingest x => (ks, sync_reduce isReduced opts rfn ks st acc x)
  | Complete => (ks, sync_complete opts rfn st acc)
  | SetKeys ks' => (ks', (st, Ok acc))
  end.

Fixpoint exec (cs : list (call T)) (ks : gset label) (st : state T) (acc : Acc)
    : gset label * (state T * outcome Acc) :=
  match cs with
  | [] => (ks, (st, Ok acc))
  | c :: cs' =>
      match call1 c ks st acc with
      | (ks', (st', Ok acc')) => exec cs' ks' st' acc'
      | r => r
      end
  end.

(** Feeding a finite source, without and with the final [complete()]. *)
Definition feed (ks : gset label) (xs : list T) : state T * outcome Acc :=
  (exec (Ingest <$> xs) ks initState (r_init rfn)).2.

Definition run (ks : gset label) (xs : list T) : state T * outcome Acc :=
  (exec ((Ingest <$> xs) ++ [Complete]) ks initState (r_init rfn)).2.
End Caller.

(** The owner of the label set only ever adds labels: every [SetKeys] of
    the run installs a superset of the set it replaces. *)
Fixpoint grow_only {T} (ks : gset label) (cs : list (call T)) : Prop :=
  match cs with
  | [] => True
  | SetKeys ks' :: cs' => ks ⊆ ks' ∧ grow_only ks' cs'
  | _ :: cs' => grow_only ks cs'
  end.

(** The queues of a state are in order for the limit [bp]: every present
    label has a non-empty queue, and no queue is longer than [bp]. *)
Definition queues_ok {T} (bp : Z) (st : state T) : Prop :=
  (∀ k, k ∈ currKeys st → ∃ v rest, cache st !! k = Some (v :: rest))
  ∧ (∀ k slot, cache st !! k = Some slot → Z.of_nat (length slot) ≤ bp).

(** A call answered, or ended by the overflow error: not by a failed
    non-null assertion, and not by the model's loop bound. *)
Definition answered {A} (o : outcome A) : Prop :=
  match o with
  | Ok _ | Throw (IllegalState _) => True
  | _ => False
  end.

(** The reducer [push()]: collects what it is given, never reduced. *)
Definition push {B} : Reducer (list B) B := mkReducer [] id (λ acc x, acc ++ [x]).
Definition never {A} (_ : A) : bool := false.

(** ** The sources of the examples: values [[label, n]], keyed by [x[0]] *)

Definition V : Type := label * nat.
Definition a1 : V := ("a", 1%nat).
Definition a2 : V := ("a", 2%nat).
Definition a3 : V := ("a", 3%nat).
Definition b1 : V := ("b", 1%nat).
Definition b2 : V := ("b", 2%nat).
Definition c1 : V := ("c", 1%nat).
Definition d1 : V := ("d", 1%nat).
Definition labelOf : V → label := fst.
Definition ab : gset label := {[ "a"; "b" ]}.
Definition src : list V := [a1; a2; d1; b1; b2; c1; a3].

(** ** Reading a run *)



(** The queue of the label [k]; a label never seen has none, which reads as
    the empty one. *)
Definition queue {T} (st : state T) (k : label) : list T :=
  default [] (cache st !! k).



(** * Facts about the model *)

(** ** The choice of the reducer *)

Section Facts.
Context {T Acc : Type}.
Implicit Types (opts : PartitionSyncOpts T) (rfn : Reducer Acc (gmap label T)).
Implicit Types (st : state T) (acc : Acc) (ks : gset label).

Lemma mode_fifo_iff opts :
  mode opts = BoundedFifo ↔ mergeOnly opts = false ∧ 1 ≤ backPressure opts.
Proof.
  unfold mode. destruct (mergeOnly opts); cbn [orb].
  - split; [discriminate | intros [? _]; discriminate].
  - destruct (Z.ltb_spec (backPressure opts) 1); split;
      try discriminate; try (intros [_ ?]; lia); auto.
Qed.

Lemma mode_latest_iff opts :
  mode opts = UnboundedLatest ↔ mergeOnly opts = true ∨ backPressure opts < 1.
Proof.
  unfold mode. destruct (mergeOnly opts); cbn [orb].
  - split; auto.
  - destruct (Z.ltb_spec (backPressure opts) 1); split;
      try discriminate; auto; intros [? | ?]; [discriminate | lia].
Qed.

(** The first reducer has no failing path. *)
Lemma reduce_latest_ok opts rfn ks st acc x :
  ∃ acc', (reduce_latest opts rfn ks st acc x).2 = Ok acc'.
Proof.
  unfold reduce_latest.
  repeat match goal with |- context [if ?b then _ else _] => destruct b end;
    eauto.
Qed.

Lemma complete_latest_ok opts rfn st acc :
  ∃ acc', (complete_latest opts rfn st acc).2 = Ok acc'.
Proof. unfold complete_latest. case_match; eauto. Qed.

(** The drain loop raises no [IllegalState]. *)
Lemma drain_not_illegal isReduced rfn fuel ks st acc st' msg :
  drain isReduced rfn fuel ks st acc ≠ (st', Throw (IllegalState msg)).
Proof.
  revert st acc. induction fuel as [| fuel IH]; intros st acc; cbn [drain].
  - case_match; discriminate.
  - case_match; [| discriminate].
    destruct (collect (cache st) (currKeys st)) as [[[tup cch] cks] |];
      [| discriminate].
    case_match; [discriminate | apply IH].
Qed.
End Facts.

(** ** What [collect] does *)

Section CollectFacts.
Context {T : Type}.
Implicit Types (tup : gmap label T) (cch : gmap label (list T)).
Implicit Types (cks : gset label) (l : list label).

Lemma collect_list_None l : collect_list (T := T) l None = None.
Proof. by induction l. Qed.

Lemma collect_list_spec l tup0 cch0 cks0 tup cch cks :
  NoDup l →
  collect_list l (Some (tup0, cch0, cks0)) = Some (tup, cch, cks) →
  (∀ k, k ∈ l →
     ∃ v rest, cch0 !! k = Some (v :: rest) ∧ cch !! k = Some rest
               ∧ tup !! k = Some v ∧ (k ∈ cks ↔ k ∈ cks0 ∧ rest ≠ []))
  ∧ (∀ k, k ∉ l →
     cch !! k = cch0 !! k ∧ tup !! k = tup0 !! k ∧ (k ∈ cks ↔ k ∈ cks0)).
Proof.
  revert tup0 cch0 cks0.
  induction l as [| id l IH]; intros tup0 cch0 cks0 Hnd Hc.
  - cbn in Hc. injection Hc as <- <- <-. split; [| done].
    intros k Hk. by apply elem_of_nil in Hk.
  - apply NoDup_cons in Hnd as [Hid Hnd].
    unfold collect_list in Hc. cbn [foldl collect_one] in Hc.
    destruct (cch0 !! id) as [[| v slot] |] eqn:Hslot;
      try (fold (collect_list (T := T) l None) in Hc;
           by rewrite collect_list_None in Hc).
    apply IH in Hc as [Hin Hout]; [| done].
    destruct (Hout id Hid) as (Hc1 & Ht1 & Hk1).
    rewrite lookup_insert_eq in Hc1. rewrite lookup_insert_eq in Ht1.
    split.
    + intros k [-> | Hk]%elem_of_cons.
      * exists v, slot. split; [done |]. split; [done |]. split; [done |].
        rewrite Hk1. case_decide as Hs; [| naive_solver].
        rewrite elem_of_difference, elem_of_singleton. naive_solver.
      * assert (Hne : k ≠ id) by (intros ->; done).
        destruct (Hin k Hk) as (v' & rest & H1 & H2 & H3 & H4).
        rewrite lookup_insert_ne in H1 by done.
        exists v', rest. split; [done |]. split; [done |]. split; [done |].
        rewrite H4. case_decide as Hs; [| naive_solver].
        rewrite elem_of_difference, elem_of_singleton. naive_solver.
    + intros k Hk. apply not_elem_of_cons in Hk as [Hne Hk].
      destruct (Hout k Hk) as (H1 & H2 & H3).
      rewrite lookup_insert_ne in H1 by done.
      rewrite lookup_insert_ne in H2 by done.
      split; [done |]. split; [done |].
      rewrite H3. case_decide as Hs; [| naive_solver].
      rewrite elem_of_difference, elem_of_singleton. naive_solver.
Qed.

Lemma collect_list_succeeds l tup0 cch0 cks0 :
  NoDup l →
  (∀ k, k ∈ l → ∃ v rest, cch0 !! k = Some (v :: rest)) →
  is_Some (collect_list l (Some (tup0, cch0, cks0))).
Proof.
  revert tup0 cch0 cks0.
  induction l as [| id l IH]; intros tup0 cch0 cks0 Hnd Hall; [by eexists |].
  apply NoDup_cons in Hnd as [Hid Hnd].
  unfold collect_list. cbn [foldl collect_one].
  destruct (Hall id) as (v & rest & ->); [set_solver |].
  apply IH; [done |].
  intros k Hk. destruct (Hall k) as (v' & rest' & H); [set_solver |].
  exists v', rest'. rewrite lookup_insert_ne; [done | by intros ->].
Qed.

(** One round of [collect]: every present label gives the front of its
    queue and stays present iff more is queued; the other queues are
    untouched. *)
Lemma collect_spec cch0 cks0 tup cch cks :
  collect cch0 cks0 = Some (tup, cch, cks) →
  (∀ k, k ∈ cks0 →
     ∃ v rest, cch0 !! k = Some (v :: rest) ∧ cch !! k = Some rest
               ∧ tup !! k = Some v ∧ (k ∈ cks ↔ rest ≠ []))
  ∧ (∀ k, k ∉ cks0 →
     cch !! k = cch0 !! k ∧ tup !! k = None ∧ k ∉ cks).
Proof.
  intros Hc. apply collect_list_spec in Hc as [Hin Hout];
    [| apply NoDup_elements].
  split.
  - intros k Hk. destruct (Hin k) as (v & rest & ? & ? & ? & Hmem);
      [by apply elem_of_elements |].
    exists v, rest. repeat split; try done; [apply Hmem | ].
    intros ?. apply Hmem. done.
  - intros k Hk. destruct (Hout k) as (? & ? & Hmem);
      [by rewrite elem_of_elements |].
    repeat split; try done. by rewrite Hmem.
Qed.

Lemma collect_succeeds cch0 cks0 :
  (∀ k, k ∈ cks0 → ∃ v rest, cch0 !! k = Some (v :: rest)) →
  is_Some (collect cch0 cks0).
Proof.
  intros Hall. apply collect_list_succeeds; [apply NoDup_elements |].
  intros k Hk. apply Hall. by apply elem_of_elements.
Qed.

Lemma requiredInputs_subseteq (required cks : gset label) :
  requiredInputs required cks = true ↔ required ⊆ cks.
Proof.
  unfold requiredInputs. case_decide as Hsz.
  - split; [done |]. intros Hsub%subseteq_size. lia.
  - rewrite forallb_forall. split.
    + intros H k Hk. eapply bool_decide_eq_true_1, H.
      by apply list_elem_of_In, elem_of_elements.
    + intros H k Hk. apply bool_decide_eq_true_2, H.
      by apply elem_of_elements, list_elem_of_In.
Qed.
End CollectFacts.

(** ** The model loses nothing: every call is answered

    From the initial state no call ends on a failed non-null assertion, and
    the bound given to the drain loop is never reached; in bounded-FIFO mode
    no queue grows beyond backPressure. *)

Section Adequacy.
Context {T Acc : Type}.
Variable isReduced : Acc → bool.
Variable opts : PartitionSyncOpts T.
Variable rfn : Reducer Acc (gmap label T).
Implicit Types (st : state T) (acc : Acc) (ks : gset label).

Lemma queues_ok_collect bp st tup cch cks b :
  queues_ok bp st →
  collect (cache st) (currKeys st) = Some (tup, cch, cks) →
  queues_ok bp (mkState (curr st) b cks cch).
Proof.
  intros [Hne Hlen] [Hin Hout]%collect_spec. split; cbn [currKeys cache].
  - intros k Hk. destruct (decide (k ∈ currKeys st)) as [Hp | Hp].
    + destruct (Hin k Hp) as (v & rest & _ & Hc & _ & Hmem).
      apply Hmem in Hk. destruct rest as [| v' rest']; [done | eauto].
    + by destruct (Hout k Hp) as (_ & _ & ?).
  - intros k slot Hk. destruct (decide (k ∈ currKeys st)) as [Hp | Hp].
    + destruct (Hin k Hp) as (v & rest & H0 & Hc & _).
      rewrite Hc in Hk. injection Hk as <-.
      apply Hlen in H0. cbn [length] in H0. lia.
    + destruct (Hout k Hp) as (Hc & _). rewrite Hc in Hk. eauto.
Qed.

Lemma drain_answers bp fuel ks st acc k slot :
  queues_ok bp st →
  k ∈ ks → cache st !! k = Some slot → (length slot < fuel)%nat →
  ∃ st' acc', drain isReduced rfn fuel ks st acc = (st', Ok acc')
              ∧ queues_ok bp st'.
Proof.
  revert st acc slot.
  induction fuel as [| fuel IH]; intros st acc slot Hq Hk Hslot Hfuel; [lia |].
  cbn [drain]. destruct (requiredInputs ks (currKeys st)) eqn:Hreq; [| eauto].
  apply requiredInputs_subseteq in Hreq.
  destruct (collect_succeeds (cache st) (currKeys st) (proj1 Hq))
    as [[[tup cch] cks] Hc].
  rewrite Hc.
  pose proof (queues_ok_collect bp st tup cch cks false Hq Hc) as Hq'.
  destruct (isReduced _); [eauto |].
  apply collect_spec in Hc as [Hin _].
  destruct (Hin k) as (v & rest & H0 & H1 & _); [set_solver |].
  rewrite Hslot in H0. injection H0 as ->.
  eapply (IH _ _ rest); eauto. cbn [length] in Hfuel. lia.
Qed.

Lemma reduce_fifo_answers ks st acc x :
  1 ≤ backPressure opts →
  queues_ok (backPressure opts) st →
  let r := reduce_fifo isReduced opts rfn ks st acc x in
  queues_ok (backPressure opts) r.1 ∧ answered r.2.
Proof.
  intros Hbp Hq. unfold reduce_fifo.
  case_bool_decide as Hk; [| done].
  set (k := key opts x) in *.
  case_bool_decide as Hlen.
  { split; [| done]. destruct (cache st !! k) as [slot |] eqn:Hslot.
    - by destruct st.
    - cbn [default length] in Hlen. lia. }
  set (slot := default [] (cache st !! k)) in *.
  set (cache1 := match cache st !! k with
                 | Some _ => cache st
                 | None => <[k := []]> (cache st)
                 end).
  assert (Hother : ∀ k', k' ≠ k → cache1 !! k' = cache st !! k').
  { intros k' Hne. unfold cache1. destruct (cache st !! k); [done |].
    by rewrite lookup_insert_ne. }
  destruct Hq as [Hne Hmax].
  assert (Hq1 : queues_ok (backPressure opts)
            (mkState (curr st) (first st) ({[k]} ∪ currKeys st)
               (<[k := slot ++ [x]]> cache1))).
  { split; cbn [currKeys cache].
    - intros k' Hk'. destruct (decide (k' = k)) as [-> | Hne'].
      + rewrite lookup_insert_eq. destruct slot; cbn; eauto.
      + rewrite lookup_insert_ne, Hother by done. apply Hne. set_solver.
    - intros k' slot' Hk'. destruct (decide (k' = k)) as [-> | Hne'].
      + rewrite lookup_insert_eq in Hk'. injection Hk' as <-.
        rewrite length_app. cbn [length]. lia.
      + rewrite lookup_insert_ne, Hother in Hk' by done. eauto. }
  destruct (drain_answers (backPressure opts) (S (length (slot ++ [x]))) ks _
              acc k (slot ++ [x]) Hq1 Hk) as (st' & acc' & -> & Hq');
    [apply lookup_insert_eq | lia |].
  done.
Qed.

Lemma complete_fifo_answers bp st acc :
  queues_ok bp st →
  let r := complete_fifo opts rfn st acc in
  queues_ok bp r.1 ∧ answered r.2.
Proof.
  intros Hq. unfold complete_fifo. case_match; [| done].
  destruct (collect_succeeds (cache st) (currKeys st) (proj1 Hq))
    as [[[tup cch] cks] Hc].
  rewrite Hc. split; [| done].
  pose proof (queues_ok_collect bp st tup cch cks (first st) Hq Hc) as [_ Hmax].
  split; cbn [fst currKeys cache]; [set_solver | done].
Qed.

Lemma exec_fifo_answers cs ks st acc :
  mode opts = BoundedFifo →
  queues_ok (backPressure opts) st →
  let r := exec isReduced opts rfn cs ks st acc in
  queues_ok (backPressure opts) r.2.1 ∧ answered r.2.2.
Proof.
  intros Hm. pose proof (proj1 (mode_fifo_iff opts) Hm) as [_ Hbp].
  revert ks st acc. induction cs as [| c cs IH]; intros ks st acc Hq; [done |].
  cbn [exec]. destruct c as [x | | ks']; cbn [call1].
  - unfold sync_reduce. rewrite Hm.
    pose proof (reduce_fifo_answers ks st acc x Hbp Hq) as [Hq' Ha].
    destruct (reduce_fifo isReduced opts rfn ks st acc x) as [st1 [acc1 | e |]];
      cbn [fst snd] in *; [by apply IH | done ..].
  - unfold sync_complete. rewrite Hm.
    pose proof (complete_fifo_answers _ st acc Hq) as [Hq' Ha].
    destruct (complete_fifo opts rfn st acc) as [st1 [acc1 | e |]];
      cbn [fst snd] in *; [by apply IH | done ..].
  - by apply IH.
Qed.

Lemma exec_latest_answers cs ks st acc :
  mode opts = UnboundedLatest →
  ∃ acc', (exec isReduced opts rfn cs ks st acc).2.2 = Ok acc'.
Proof.
  intros Hm. revert ks st acc.
  induction cs as [| c cs IH]; intros ks st acc; [by eexists |].
  cbn [exec]. destruct c as [x | | ks']; cbn [call1].
  - unfold sync_reduce. rewrite Hm.
    destruct (reduce_latest_ok opts rfn ks st acc x) as [acc1 H].
    destruct (reduce_latest opts rfn ks st acc x) as [st1 o1].
    cbn [snd] in H. subst o1. apply IH.
  - unfold sync_complete. rewrite Hm.
    destruct (complete_latest_ok opts rfn st acc) as [acc1 H].
    destruct (complete_latest opts rfn st acc) as [st1 o1].
    cbn [snd] in H. subst o1. apply IH.
  - apply IH.
Qed.

(** Every run from the initial state is answered; in bounded-FIFO mode the
    queues stay within the limit. *)
Theorem exec_answers cs ks acc :
  let r := exec isReduced opts rfn cs ks initState acc in
  answered r.2.2
  ∧ (mode opts = BoundedFifo → queues_ok (backPressure opts) r.2.1).
Proof.
  destruct (mode opts) eqn:Hm.
  - destruct (exec_latest_answers cs ks initState acc Hm) as [acc' H].
    cbn zeta. rewrite H. done.
  - assert (Hq : queues_ok (backPressure opts) (@initState T)).
    { split; cbn [initState currKeys cache].
      - set_solver.
      - intros k slot. by rewrite lookup_empty. }
    destruct (exec_fifo_answers cs ks initState acc Hm Hq). done.
Qed.
End Adequacy.

(** ** Values whose label is not required *)

Lemma sync_reduce_outside {T Acc : Type} (isReduced : Acc → bool)
    (opts : PartitionSyncOpts T) (rfn : Reducer Acc (gmap label T))
    (ks : gset label) (st : state T) (acc : Acc) (x : T) :
  key opts x ∉ ks →
  sync_reduce isReduced opts rfn ks st acc x = (st, Ok acc).
Proof.
  intros Hk. unfold sync_reduce, reduce_latest, reduce_fifo.
  destruct (mode opts); by rewrite bool_decide_eq_false_2.
Qed.

Lemma exec_outside {T Acc : Type} (isReduced : Acc → bool)
    (opts : PartitionSyncOpts T) (rfn : Reducer Acc (gmap label T))
    (ks : gset label) (st : state T) (acc : Acc) (xs : list T) :
  Forall (λ x, key opts x ∉ ks) xs →
  exec isReduced opts rfn (Ingest <$> xs) ks st acc = (ks, (st, Ok acc)).
Proof.
  induction 1 as [| x xs Hx _ IH]; [reflexivity |].
  cbn [fmap list_fmap exec call1]. rewrite sync_reduce_outside by done.
  exact IH.
Qed.

Lemma exec_app {T Acc : Type} (isReduced : Acc → bool)
    (opts : PartitionSyncOpts T) (rfn : Reducer Acc (gmap label T))
    (cs1 cs2 : list (call T)) (ks : gset label) (st : state T) (acc : Acc) :
  exec isReduced opts rfn (cs1 ++ cs2) ks st acc
  = match exec isReduced opts rfn cs1 ks st acc with
    | (ks', (st', Ok acc')) => exec isReduced opts rfn cs2 ks' st' acc'
    | r => r
    end.
Proof.
  revert ks st acc. induction cs1 as [| c cs1 IH]; intros ks st acc;
    [reflexivity |].
  cbn [app exec].
  destruct (call1 isReduced opts rfn c ks st acc) as [ks1 [st1 [acc1 | e |]]];
    [apply IH | reflexivity ..].
Qed.

(** ** The current tuple and the label set *)

Section Invariant.
Context {T Acc : Type}.
Variable isReduced : Acc → bool.
Variable opts : PartitionSyncOpts T.
Variable rfn : Reducer Acc (gmap label T).

Lemma reduce_latest_dom_curr ks st acc x :
  dom (curr st) ⊆ ks →
  dom (curr (reduce_latest opts rfn ks st acc x).1) ⊆ ks.
Proof.
  intros Hinv. unfold reduce_latest.
  case_bool_decide as Hk; [| done].
  repeat case_match; cbn [fst curr]; rewrite ?dom_insert_L; set_solver.
Qed.

Lemma complete_latest_dom_curr ks st acc :
  dom (curr st) ⊆ ks →
  dom (curr (complete_latest opts rfn st acc).1) ⊆ ks.
Proof.
  intros Hinv. unfold complete_latest. case_match; cbn [fst curr]; set_solver.
Qed.

Lemma grow_only_prefix (ks : gset label) (pre cs : list (call T)) :
  pre `prefix_of` cs → grow_only ks cs → grow_only ks pre.
Proof.
  intros [suf ->]. revert ks.
  induction pre as [| c pre IH]; intros ks; [done |].
  destruct c; cbn [app grow_only]; [apply IH .. |].
  intros [? ?]; split; [done | by apply IH].
Qed.

Lemma exec_latest_dom_curr cs ks st acc :
  mode opts = UnboundedLatest →
  grow_only ks cs →
  dom (curr st) ⊆ ks →
  let r := exec isReduced opts rfn cs ks st acc in
  dom (curr r.2.1) ⊆ r.1.
Proof.
  intros Hm. revert ks st acc.
  induction cs as [| c cs IH]; intros ks st acc Hg Hinv; [done |].
  cbn [exec]. destruct c as [x | | ks']; cbn [call1 grow_only] in *.
  - unfold sync_reduce. rewrite Hm.
    pose proof (reduce_latest_dom_curr ks st acc x Hinv) as H1.
    destruct (reduce_latest_ok opts rfn ks st acc x) as [acc1 H2].
    destruct (reduce_latest opts rfn ks st acc x) as [st1 o1].
    cbn [fst snd] in *. subst o1. by apply IH.
  - unfold sync_complete. rewrite Hm.
    pose proof (complete_latest_dom_curr ks st acc Hinv) as H1.
    destruct (complete_latest_ok opts rfn st acc) as [acc1 H2].
    destruct (complete_latest opts rfn st acc) as [st1 o1].
    cbn [fst snd] in *. subst o1. by apply IH.
  - destruct Hg as [Hsub Hg]. apply IH; [done | set_solver].
Qed.
End Invariant.

(** * The claims *)

(** C1. Unbounded-latest mode, default options, labels {a,b}, source
    [a1,a2,d,b1,b2,c,a3]: exactly the tuples {a:a2,b:b1} and {a:a3,b:b2} are
    emitted, in that order; no label is present after the last emission and
    the final complete() adds nothing. *)
Theorem C1_default_run :
  let o := defaultOpts labelOf in
  let out : list (gmap label V) :=
    [ {[ "a" := a2; "b" := b1 ]}; {[ "a" := a3; "b" := b2 ]} ] in
  mode o = UnboundedLatest
  ∧ feed never o push ab src = (mkState ∅ false ∅ ∅, Ok out)
  ∧ sync_complete o push (mkState ∅ false ∅ ∅) out = (mkState ∅ false ∅ ∅, Ok out)
  ∧ run never o push ab src = (mkState ∅ false ∅ ∅, Ok out).
Proof. vm_compute. done. Qed.

(** C2. Bounded-FIFO mode, backPressure=1, labels {a,b}: of two values
    labelled a ingested before any value labelled b, the first is queued and
    the second raises the overflow error, whose message names the limit 1 and
    the label a; the error is the result of that very call and ends the run. *)
Theorem C2_overflow_second_a {T Acc : Type} (isReduced : Acc → bool)
    (keyf : T → label) (rs al : bool) (rfn : Reducer Acc (gmap label T))
    (acc : Acc) (x y : T) :
  keyf x = "a" → keyf y = "a" →
  let o := mkOpts keyf false rs al 1 in
  let st1 := mkState ∅ true {[ "a" ]} {[ "a" := [x] ]} in
  let err := IllegalState "max back pressure (1) exceeded for input: a" in
  mode o = BoundedFifo
  ∧ sync_reduce isReduced o rfn ab initState acc x = (st1, Ok acc)
  ∧ sync_reduce isReduced o rfn ab st1 acc y = (st1, Throw err)
  ∧ ∀ rest, (exec isReduced o rfn (Ingest x :: Ingest y :: rest) ab initState acc).2
            = (st1, Throw err).
Proof.
  intros Hx Hy o st1 err.
  assert (Hm : mode o = BoundedFifo) by reflexivity.
  assert (H1 : sync_reduce isReduced o rfn ab initState acc x = (st1, Ok acc)).
  { unfold sync_reduce, reduce_fifo. rewrite Hm. cbn [key o]. rewrite Hx.
    vm_compute. reflexivity. }
  assert (H2 : sync_reduce isReduced o rfn ab st1 acc y = (st1, Throw err)).
  { unfold sync_reduce, reduce_fifo. rewrite Hm. cbn [key o]. rewrite Hy.
    vm_compute. reflexivity. }
  repeat split; try assumption.
  intros rest. cbn [exec call1]. rewrite H1. cbn [exec call1]. rewrite H2.
  reflexivity.
Qed.

Lemma C2_overflow_second_a_witness :
  labelOf a1 = "a" ∧ labelOf a2 = "a"
  ∧ sync_reduce never (mkOpts labelOf false true true 1) push ab
      (mkState ∅ true {[ "a" ]} {[ "a" := [a1] ]}) [] a2
    = (mkState ∅ true {[ "a" ]} {[ "a" := [a1] ]},
       Throw (IllegalState "max back pressure (1) exceeded for input: a")).
Proof.
  split; [reflexivity | split; [reflexivity |]].
  apply (C2_overflow_second_a never labelOf true true push [] a1 a2);
    reflexivity.
Defined.

(** C3. Bounded-FIFO mode, backPressure=2, labels {a,b}: with two values
    queued for a, the single call ingesting the first b emits exactly one
    tuple {a:a1,b:b1} and leaves the second a queued; ingesting the second b
    then emits exactly {a:a2,b:b2}. *)
Theorem C3_fifo_pairs_in_arrival_order {T : Type} (keyf : T → label)
    (rs al : bool) (x1 x2 y1 y2 : T) (out : list (gmap label T)) :
  keyf x1 = "a" → keyf x2 = "a" → keyf y1 = "b" → keyf y2 = "b" →
  let o := mkOpts keyf false rs al 2 in
  let st2 := mkState ∅ true {[ "a" ]} {[ "a" := [x1; x2] ]} in
  let st3 := mkState ∅ false {[ "a" ]} {[ "a" := [x2]; "b" := [] ]} in
  let st4 := mkState ∅ false ∅ {[ "a" := []; "b" := [] ]} in
  mode o = BoundedFifo
  ∧ (exec never o push [Ingest x1; Ingest x2] ab initState out).2 = (st2, Ok out)
  ∧ sync_reduce never o push ab st2 out y1
    = (st3, Ok (out ++ [ {[ "a" := x1; "b" := y1 ]} ]))
  ∧ sync_reduce never o push ab st3 out y2
    = (st4, Ok (out ++ [ {[ "a" := x2; "b" := y2 ]} ])).
Proof.
  intros Hx1 Hx2 Hy1 Hy2 o st2 st3 st4.
  assert (Hm : mode o = BoundedFifo) by reflexivity.
  split; [exact Hm |].
  unfold exec, call1, sync_reduce, reduce_fifo. rewrite Hm. cbn [key o].
  rewrite Hx1, Hx2, Hy1, Hy2.
  repeat split; vm_compute; reflexivity.
Qed.

Lemma C3_fifo_pairs_in_arrival_order_witness :
  sync_reduce never (mkOpts labelOf false true true 2) push ab
    (mkState ∅ true {[ "a" ]} {[ "a" := [a1; a2] ]}) [] b1
  = (mkState ∅ false {[ "a" ]} {[ "a" := [a2]; "b" := [] ]},
     Ok [ {[ "a" := a1; "b" := b1 ]} ]).
Proof.
  apply (C3_fifo_pairs_in_arrival_order labelOf true true a1 a2 b1 b2 []);
    reflexivity.
Defined.

(** C4, as stated, fails: with mergeOnly=true and backPressure=1 the first
    reducer is returned; two values labelled a are each emitted at once, and
    nothing is queued or checked for overflow. *)
Lemma C4_mergeOnly_overrides_backPressure :
  let o := mkOpts labelOf true true true 1 in
  1 ≤ backPressure o
  ∧ mode o ≠ BoundedFifo
  ∧ feed never o push ab [a1; a2]
    = (mkState ∅ false ∅ ∅, Ok [ {[ "a" := a1 ]}; {[ "a" := a2 ]} ]).
Proof. vm_compute. repeat split; discriminate. Qed.

(** C4, amended. For every configuration with backPressure >= 1 the
    synchronizer runs in bounded-FIFO mode exactly when mergeOnly is false;
    with mergeOnly=true it runs in unbounded-latest mode and backPressure is
    ignored. *)
Theorem C4_fifo_unless_mergeOnly {T Acc : Type} (isReduced : Acc → bool)
    (opts : PartitionSyncOpts T) (rfn : Reducer Acc (gmap label T)) :
  1 ≤ backPressure opts →
  (mergeOnly opts = false →
     mode opts = BoundedFifo
     ∧ sync_complete opts rfn = complete_fifo opts rfn
     ∧ sync_reduce isReduced opts rfn = reduce_fifo isReduced opts rfn)
  ∧ (mergeOnly opts = true →
     mode opts = UnboundedLatest
     ∧ sync_complete opts rfn = complete_latest opts rfn
     ∧ sync_reduce isReduced opts rfn = reduce_latest opts rfn).
Proof.
  intros Hbp. split; intros Hmo.
  - assert (Hm : mode opts = BoundedFifo) by (apply mode_fifo_iff; auto).
    unfold sync_complete, sync_reduce. rewrite Hm. auto.
  - assert (Hm : mode opts = UnboundedLatest) by (apply mode_latest_iff; auto).
    unfold sync_complete, sync_reduce. rewrite Hm. auto.
Qed.

Lemma C4_fifo_unless_mergeOnly_witness :
  mode (mkOpts labelOf false true true 1) = BoundedFifo
  ∧ mode (mkOpts labelOf true true true 1) = UnboundedLatest.
Proof.
  split.
  - apply (C4_fifo_unless_mergeOnly never (mkOpts labelOf false true true 1) push);
      [cbn; lia | reflexivity].
  - apply (C4_fifo_unless_mergeOnly never (mkOpts labelOf true true true 1) push);
      [cbn; lia | reflexivity].
Defined.

(** C5 at reset=false, all=false (unbounded-latest mode), labels {a,b},
    source [a1]: nothing is emitted while ingesting, and complete() emits the
    partial tuple {a:a1} although all=false. *)
Theorem C5_all_false_still_flushes_without_reset :
  let o := mkOpts labelOf false false false 0 in
  let st := mkState {[ "a" := a1 ]} true {[ "a" ]} ∅ in
  feed never o push ab [a1] = (st, Ok [])
  ∧ sync_complete o push st [] = (mkState ∅ false ∅ ∅, Ok [ {[ "a" := a1 ]} ])
  ∧ (run never o push ab [a1]).2 = Ok [ {[ "a" := a1 ]} ].
Proof. vm_compute. done. Qed.

(** Where all=false does keep complete() silent: in bounded-FIFO mode, with
    reset=true, and once a tuple has been emitted. *)
Lemma complete_all_false_silent {T Acc : Type}
    (opts : PartitionSyncOpts T) (rfn : Reducer Acc (gmap label T))
    (st : state T) (acc : Acc) :
  all opts = false →
  mode opts = BoundedFifo ∨ reset opts = true ∨ first st = false →
  sync_complete opts rfn st acc = (st, Ok (r_complete rfn acc)).
Proof.
  intros Hall Hc. unfold sync_complete, complete_latest, complete_fifo.
  rewrite Hall.
  destruct (mode opts); [| reflexivity].
  destruct Hc as [? | [-> | ->]]; [discriminate | reflexivity |].
  by destruct (reset opts).
Qed.

(** C6. Same source with reset=false (mergeOnly=false, all=true): exactly
    the three tuples {a:a2,b:b1}, {a:a2,b:b2}, {a:a3,b:b2}, in that order;
    every qualifying input after the first full tuple emits at once and
    keeps the other label's value. *)
Theorem C6_no_reset_run :
  let o := mkOpts labelOf false false true 0 in
  let t1 : gmap label V := {[ "a" := a2; "b" := b1 ]} in
  let t2 : gmap label V := {[ "a" := a2; "b" := b2 ]} in
  let t3 : gmap label V := {[ "a" := a3; "b" := b2 ]} in
  mode o = UnboundedLatest
  ∧ (feed never o push ab [a1; a2; d1; b1]).2 = Ok [t1]
  ∧ (feed never o push ab [a1; a2; d1; b1; b2]).2 = Ok [t1; t2]
  ∧ (feed never o push ab [a1; a2; d1; b1; b2; c1]).2 = Ok [t1; t2]
  ∧ (feed never o push ab src).2 = Ok [t1; t2; t3]
  ∧ (run never o push ab src).2 = Ok [t1; t2; t3].
Proof. vm_compute. done. Qed.

(** C7, as stated, fails: with reset=false the completion flushes when no
    tuple was emitted before, here the empty tuple, although every label of
    the source lies outside {a,b}. *)
Lemma C7_no_reset_flushes_empty_tuple :
  let o := mkOpts labelOf false false true 0 in
  Forall (λ x, key o x ∉ ab) [d1; c1]
  ∧ feed never o push ab [d1; c1] = (initState, Ok [])
  ∧ (run never o push ab [d1; c1]).2 = Ok [ ∅ ].
Proof.
  split; [| vm_compute; done].
  repeat constructor; vm_compute; set_solver.
Qed.

(** C7, amended. For every configuration and every source whose labels all
    lie outside the label set, no ingest emits a tuple or changes the state,
    and complete() emits nothing in bounded-FIFO mode and with reset=true; in
    unbounded-latest mode with reset=false and all=true, complete() flushes
    one tuple, the empty one. *)
Theorem C7_outside_labels_emit_nothing {T Acc : Type} (isReduced : Acc → bool)
    (opts : PartitionSyncOpts T) (rfn : Reducer Acc (gmap label T))
    (ks : gset label) (xs : list T) :
  Forall (λ x, key opts x ∉ ks) xs →
  feed isReduced opts rfn ks xs = (initState, Ok (r_init rfn))
  ∧ (mode opts = BoundedFifo ∨ reset opts = true →
     run isReduced opts rfn ks xs
     = (initState, Ok (r_complete rfn (r_init rfn))))
  ∧ (mode opts = UnboundedLatest → reset opts = false → all opts = true →
     run isReduced opts rfn ks xs
     = (mkState ∅ false ∅ ∅,
        Ok (r_complete rfn (r_reduce rfn (r_init rfn) ∅)))).
Proof.
  intros Hxs. unfold feed, run.
  rewrite exec_app, (exec_outside _ _ _ _ _ _ _ Hxs). cbn [exec call1 snd].
  split; [reflexivity |].
  assert (Hc : sync_complete opts rfn initState (r_init rfn)
               = if negb (reset opts)
                    && match mode opts with UnboundedLatest => true | _ => false end
                 then (mkState ∅ false ∅ ∅,
                       Ok (r_complete rfn (r_reduce rfn (r_init rfn) ∅)))
                 else (initState, Ok (r_complete rfn (r_init rfn)))).
  { unfold sync_complete, complete_latest, complete_fifo.
    cbn [initState currKeys first curr cache]. rewrite size_empty.
    cbn [Nat.ltb Nat.leb]. rewrite !andb_false_r.
    by destruct (mode opts), (reset opts). }
  rewrite Hc. split.
  - intros [-> | ->]; [by rewrite andb_false_r | reflexivity].
  - intros -> -> _. reflexivity.
Qed.

Lemma C7_outside_labels_emit_nothing_witness :
  feed never (defaultOpts labelOf) push ab [d1; c1] = (initState, Ok [])
  ∧ run never (defaultOpts labelOf) push ab [d1; c1] = (initState, Ok []).
Proof.
  assert (H : Forall (λ x, key (defaultOpts labelOf) x ∉ ab) [d1; c1])
    by (repeat constructor; vm_compute; set_solver).
  destruct (C7_outside_labels_emit_nothing never (defaultOpts labelOf) push
              ab [d1; c1] H) as (Hf & Hr & _).
  split; [exact Hf |]. apply Hr. right. reflexivity.
Defined.

(** C8. In both modes, for every configuration and whatever state the
    history has led to: once complete() has returned, a second complete()
    emits nothing (the downstream reduce is not called) and changes
    nothing. *)
Theorem C8_complete_flushes_once {T Acc : Type}
    (opts : PartitionSyncOpts T) (rfn : Reducer Acc (gmap label T))
    (st st' : state T) (acc acc' : Acc) :
  sync_complete opts rfn st acc = (st', Ok acc') →
  ∀ acc2, sync_complete opts rfn st' acc2 = (st', Ok (r_complete rfn acc2)).
Proof.
  unfold sync_complete. destruct (mode opts).
  - unfold complete_latest.
    destruct (reset opts), (all opts), (first st) eqn:Hf,
      (0 <? size (currKeys st))%nat eqn:Hsz; cbn [andb orb negb];
      intros [= <- _] acc2; cbn [currKeys first]; rewrite ?Hsz, ?Hf;
      reflexivity.
  - unfold complete_fifo.
    destruct (all opts), (0 <? size (currKeys st))%nat eqn:Hsz; cbn [andb];
      try (intros [= <- _] acc2; rewrite ?Hsz; reflexivity).
    destruct (collect (cache st) (currKeys st)) as [[[tup cch] cks] |];
      [| discriminate].
    intros [= <- _] acc2. reflexivity.
Qed.

Lemma C8_complete_flushes_once_witness :
  let o := defaultOpts labelOf in
  let st := mkState {[ "a" := a1 ]} true {[ "a" ]} ∅ in
  sync_complete o push st [] = (mkState ∅ false ∅ ∅, Ok [ {[ "a" := a1 ]} ])
  ∧ sync_complete o push (mkState ∅ false ∅ ∅) [ {[ "a" := a1 ]} ]
    = (mkState ∅ false ∅ ∅, Ok [ {[ "a" := a1 ]} ]).
Proof.
  intros o st.
  assert (H : sync_complete o push st []
              = (mkState ∅ false ∅ ∅, Ok [ {[ "a" := a1 ]} ]))
    by (vm_compute; reflexivity).
  split; [exact H |].
  exact (C8_complete_flushes_once o push st _ [] _ H [ {[ "a" := a1 ]} ]).
Defined.

(** C9, as stated, fails: removing a label from the label set does not
    remove it from the current tuple.  With default options and labels {a,b},
    after ingesting a1 the owner shrinks the set to {b}: the current tuple
    still holds a, and the next b emits a tuple with the removed label. *)
Lemma C9_removed_label_stays_in_tuple :
  let o := defaultOpts labelOf in
  let r := exec never o push [Ingest a1; SetKeys {[ "b" ]}] ab initState [] in
  mode o = UnboundedLatest
  ∧ r = ({[ "b" ]}, (mkState {[ "a" := a1 ]} true {[ "a" ]} ∅, Ok []))
  ∧ ¬ (dom (curr r.2.1) ⊆ r.1)
  ∧ (exec never o push [Ingest a1; SetKeys {[ "b" ]}; Ingest b1] ab initState []).2.2
    = Ok [ {[ "a" := a1; "b" := b1 ]} ].
Proof.
  intros o r.
  assert (Hr : r = ({[ "b" ]}, (mkState {[ "a" := a1 ]} true {[ "a" ]} ∅, Ok [])))
    by (vm_compute; reflexivity).
  split; [reflexivity |]. split; [exact Hr |]. split; [| vm_compute; reflexivity].
  rewrite Hr. cbn [fst snd curr]. rewrite dom_singleton_L.
  intros H. specialize (H "a"). set_solver.
Qed.

(** C9, amended. In unbounded-latest mode keys(CurrentTuple) ⊆ LabelSet holds
    at every point of a run — after every ingest, emission and complete —
    provided the owner of the label set only adds labels between calls. *)
Theorem C9_tuple_keys_within_growing_labels {T Acc : Type}
    (isReduced : Acc → bool) (opts : PartitionSyncOpts T)
    (rfn : Reducer Acc (gmap label T))
    (ks0 : gset label) (cs pre : list (call T)) (acc : Acc) :
  mode opts = UnboundedLatest →
  grow_only ks0 cs →
  pre `prefix_of` cs →
  let r := exec isReduced opts rfn pre ks0 initState acc in
  dom (curr r.2.1) ⊆ r.1.
Proof.
  intros Hm Hg Hpre. apply exec_latest_dom_curr; [done | | set_solver].
  by eapply grow_only_prefix.
Qed.

Lemma C9_tuple_keys_within_growing_labels_witness :
  let cs : list (call V) :=
    [Ingest a1; SetKeys {[ "a"; "b"; "c" ]}; Ingest c1; Ingest b1; Complete] in
  let r := exec never (defaultOpts labelOf) push (take 3 cs) ab initState [] in
  dom (curr r.2.1) ⊆ r.1.
Proof.
  intros cs.
  apply (C9_tuple_keys_within_growing_labels never (defaultOpts labelOf) push
           ab cs (take 3 cs) []).
  - reflexivity.
  - cbn. split; [set_solver | done].
  - apply prefix_take.
Defined.

(** C10. Bounded-FIFO mode: when an ingest raises the overflow error, the
    state is the one before the call — nothing was pushed, no queue and not
    the set of present labels changed: the error comes before any write to the
    cache.  (The error then is the overflow of the value's own label, whose
    queue already holds backPressure values.) *)
Theorem C10_overflow_before_mutation {T Acc : Type} (isReduced : Acc → bool)
    (opts : PartitionSyncOpts T) (rfn : Reducer Acc (gmap label T))
    (ks : gset label) (st st' : state T) (acc : Acc) (x : T) (msg : string) :
  mode opts = BoundedFifo →
  sync_reduce isReduced opts rfn ks st acc x = (st', Throw (IllegalState msg)) →
  st' = st
  ∧ msg = overflowMsg opts (key opts x)
  ∧ ∃ slot, cache st !! key opts x = Some slot
            ∧ backPressure opts ≤ Z.of_nat (length slot).
Proof.
  intros Hm. pose proof (proj1 (mode_fifo_iff opts) Hm) as [_ Hbp].
  unfold sync_reduce. rewrite Hm. unfold reduce_fifo.
  case_bool_decide as Hk; [| discriminate].
  destruct (cache st !! key opts x) as [slot |] eqn:Hslot; cbn [default].
  - case_bool_decide as Hlen.
    + intros [= <- <-]. destruct st; eauto.
    + intros H. by apply drain_not_illegal in H.
  - case_bool_decide as Hlen.
    + cbn [length] in Hlen. lia.
    + intros H. by apply drain_not_illegal in H.
Qed.

Lemma C10_overflow_before_mutation_witness :
  let st := mkState ∅ true {[ "a" ]} {[ "a" := [a1] ]} in
  ∃ st', sync_reduce never (mkOpts labelOf false true true 1) push ab st [] a2
         = (st', Throw (IllegalState "max back pressure (1) exceeded for input: a"))
         ∧ st' = st.
Proof.
  intros st. eexists. split; [vm_compute; reflexivity |].
  eapply (C10_overflow_before_mutation never (mkOpts labelOf false true true 1)
            push ab st _ [] a2 _); vm_compute; reflexivity.
Defined.

(** * Further properties of the code *)

(** ** [requiredInputs] and [collect] *)

(** [requiredInputs(required, curr)] answers true exactly when every required
    label is in [curr]: the comparison of the sizes is a shortcut that never
    changes the answer.  In particular an empty [required] is always met. *)
Theorem requiredInputs_iff_all_present (required cks : gset label) :
  (requiredInputs required cks = true ↔ ∀ id, id ∈ required → id ∈ cks)
  ∧ requiredInputs ∅ cks = true.
Proof.
  split; [apply requiredInputs_subseteq |].
  apply requiredInputs_subseteq. set_solver.
Qed.




(** ** No call gets stuck *)

(** Whatever the options, the calls made and the changes to the label set:
    from a fresh instance every call returns or ends on the overflow error.
    The non-null assertions of [collect] hold and the drain loop stops. *)
Theorem fresh_instance_always_answers {T Acc : Type} (isReduced : Acc → bool)
    (opts : PartitionSyncOpts T) (rfn : Reducer Acc (gmap label T))
    (cs : list (call T)) (ks : gset label) (acc : Acc) :
  match (exec isReduced opts rfn cs ks initState acc).2.2 with
  | Ok _ => True
  | Throw (IllegalState _) => mode opts = BoundedFifo
  | Throw NonNull | OutOfFuel => False
  end.
Proof.
  destruct (exec_answers isReduced opts rfn cs ks acc) as [Ha _].
  destruct (mode opts) eqn:Hm; [| by repeat case_match].
  destruct (exec_latest_answers isReduced opts rfn cs ks initState acc Hm)
    as [acc' ->]. done.
Qed.

(** In bounded-FIFO mode no queue ever holds more than backPressure values,
    and every present label has a value queued. *)
Theorem queues_within_backPressure {T Acc : Type} (isReduced : Acc → bool)
    (opts : PartitionSyncOpts T) (rfn : Reducer Acc (gmap label T))
    (cs : list (call T)) (ks : gset label) (acc : Acc) :
  mode opts = BoundedFifo →
  let st := (exec isReduced opts rfn cs ks initState acc).2.1 in
  (∀ k slot, cache st !! k = Some slot →
     Z.of_nat (length slot) ≤ backPressure opts)
  ∧ (∀ k, k ∈ currKeys st → ∃ v rest, cache st !! k = Some (v :: rest)).
Proof.
  intros Hm st.
  destruct (exec_answers isReduced opts rfn cs ks acc) as [_ Hq].
  destruct (Hq Hm) as [H1 H2]. split; assumption.
Qed.

Lemma queues_within_backPressure_witness :
  let st := (exec never (mkOpts labelOf false true true 2) push
               [Ingest a1; Ingest a2; Ingest b1] ab initState []).2.1 in
  cache st !! "a" = Some [a2] ∧ Z.of_nat (length [a2]) ≤ 2.
Proof.
  intros st.
  assert (H : cache st !! "a" = Some [a2]) by (vm_compute; reflexivity).
  split; [exact H |].
  destruct (queues_within_backPressure never (mkOpts labelOf false true true 2)
              push [Ingest a1; Ingest a2; Ingest b1] ab []) as [Hlen _];
    [reflexivity |].
  exact (Hlen "a" [a2] H).
Defined.

(** ** Runs that only ingest *)

Section Runs.
Context {T Acc : Type}.
Variable isReduced : Acc → bool.
Variable opts : PartitionSyncOpts T.
Variable rfn : Reducer Acc (gmap label T).
Implicit Types (st : state T) (acc : Acc) (ks : gset label) (xs : list T).

Lemma exec_snoc_Ok cs c ks st acc ks2 st2 acc2 :
  exec isReduced opts rfn (cs ++ [c]) ks st acc = (ks2, (st2, Ok acc2)) →
  ∃ ks1 st1 acc1,
    exec isReduced opts rfn cs ks st acc = (ks1, (st1, Ok acc1))
    ∧ call1 isReduced opts rfn c ks1 st1 acc1 = (ks2, (st2, Ok acc2)).
Proof.
  rewrite exec_app.
  destruct (exec isReduced opts rfn cs ks st acc) as [ks1 [st1 [acc1 | e |]]];
    [| discriminate ..].
  cbn [exec]. intros H. exists ks1, st1, acc1. split; [done |].
  by destruct (call1 isReduced opts rfn c ks1 st1 acc1) as [? [? [] ]].
Qed.

(** Induction along a source: what holds of the fresh instance and is kept
    by every ingest that returns holds after the run. *)
Lemma feed_ind ks acc0 (P : list T → state T → Acc → Prop) :
  P [] initState acc0 →
  (∀ xs x st acc st' acc',
     P xs st acc →
     sync_reduce isReduced opts rfn ks st acc x = (st', Ok acc') →
     P (xs ++ [x]) st' acc') →
  ∀ xs ks' st acc,
    exec isReduced opts rfn (Ingest <$> xs) ks initState acc0 = (ks', (st, Ok acc)) →
    ks' = ks ∧ P xs st acc.
Proof.
  intros H0 Hstep xs. induction xs as [| x xs IH] using rev_ind;
    intros ks' st acc Hrun.
  - cbn in Hrun. by injection Hrun as <- <- <-.
  - rewrite fmap_app in Hrun. cbn [fmap list_fmap] in Hrun.
    apply exec_snoc_Ok in Hrun as (ks1 & st1 & acc1 & Hrun & Hcall).
    apply IH in Hrun as [-> HP]. cbn [call1] in Hcall.
    injection Hcall as <- Hcall. split; [done |]. by eapply Hstep.
Qed.

End Runs.




(** ** Bounded-FIFO mode with a label set that does not change *)

Section FifoFixed.
Context {T Acc : Type}.
Variable isReduced : Acc → bool.
Variable opts : PartitionSyncOpts T.
Variable rfn : Reducer Acc (gmap label T).
Implicit Types (st : state T) (acc : Acc) (ks : gset label) (xs : list T).








End FifoFixed.






(** ** Unbounded-latest mode with a label set that does not change *)

Section LatestFixed.
Context {T : Type}.
Variable isReduced : list (gmap label T) → bool.
Variable opts : PartitionSyncOpts T.
Implicit Types (st : state T) (ks : gset label) (xs : list T).
Implicit Types (out : list (gmap label T)).

(** The three ways an ingest of the first reducer can go. *)
Lemma sync_reduce_latest_cases ks st out x st' out' :
  mode opts = UnboundedLatest →
  sync_reduce isReduced opts push ks st out x = (st', Ok out') →
  let k := key opts x in
  let curr1 := <[k := x]> (curr st) in
  let keys1 := {[k]} ∪ currKeys st in
  ((k ∉ ks) ∧ st' = st ∧ out' = out)
  ∨ (k ∈ ks ∧ mergeOnly opts = false ∧ ¬ ks ⊆ keys1
     ∧ st' = mkState curr1 (first st) keys1 (cache st) ∧ out' = out)
  ∨ (k ∈ ks ∧ (mergeOnly opts = true ∨ ks ⊆ keys1)
     ∧ out' = out ++ [curr1]
     ∧ st' = if reset opts then mkState ∅ false ∅ (cache st)
             else mkState curr1 false keys1 (cache st)).
Proof.
  intros Hm. unfold sync_reduce. rewrite Hm. unfold reduce_latest.
  case_bool_decide as Hk; [| intros [= <- <-]; by left].
  destruct (mergeOnly opts) eqn:Hmo; cbn [orb].
  - intros H. right; right. split; [done |]. split; [by left |].
    destruct (reset opts); by injection H as <- <-.
  - destruct (requiredInputs ks _) eqn:Hreq.
    + apply requiredInputs_subseteq in Hreq.
      intros H. right; right. split; [done |]. split; [by right |].
      destruct (reset opts); by injection H as <- <-.
    + intros [= <- <-]. right; left. repeat split; try done.
      intros Hsub%requiredInputs_subseteq. congruence.
Qed.

End LatestFixed.














(** ** Bounded-FIFO mode, whatever the calls *)

(** In bounded-FIFO mode an ingest fails exactly when the value's label is
    required and its queue is full, and then nothing changes; otherwise it
    returns.  This holds after any calls, changes of the label set and
    completions included. *)
Theorem fifo_ingest_fails_iff_queue_full {T Acc : Type} (isReduced : Acc → bool)
    (opts : PartitionSyncOpts T) (rfn : Reducer Acc (gmap label T))
    (cs : list (call T)) (ks0 ks : gset label) (st : state T)
    (acc0 acc : Acc) (x : T) :
  mode opts = BoundedFifo →
  exec isReduced opts rfn cs ks0 initState acc0 = (ks, (st, Ok acc)) →
  let k := key opts x in
  let r := sync_reduce isReduced opts rfn ks st acc x in
  (k ∈ ks ∧ backPressure opts ≤ Z.of_nat (length (queue st k)) →
     r = (st, Throw (IllegalState (overflowMsg opts k))))
  ∧ ((k ∉ ks) ∨ Z.of_nat (length (queue st k)) < backPressure opts →
     ∃ st' acc', r = (st', Ok acc')).
Proof.
  intros Hm Hrun k r. pose proof (proj1 (mode_fifo_iff opts) Hm) as [_ Hbp].
  destruct (exec_answers isReduced opts rfn cs ks0 acc0) as [_ Hq].
  specialize (Hq Hm). rewrite Hrun in Hq. cbn [fst snd] in Hq.
  pose proof (reduce_fifo_answers isReduced opts rfn ks st acc x Hbp Hq)
    as [_ Hans].
  unfold r, sync_reduce. rewrite Hm. revert Hans. unfold reduce_fifo. fold k.
  change (default [] (cache st !! k)) with (queue st k).
  case_bool_decide as Hk.
  - case_bool_decide as Hfull.
    + intros _. split; [| intros [? | ?]; [done | lia]].
      intros _. unfold queue in Hfull. destruct (cache st !! k) eqn:Hc.
      * by destruct st.
      * cbn in Hfull. lia.
    + intros Hans. split; [intros [_ ?]; lia |]. intros _.
      match goal with |- ∃ _ _, ?d = _ => destruct d as [st' [acc' | e |]] eqn:Hd end;
        [eauto | | done].
      destruct e; [| done]. by apply drain_not_illegal in Hd.
  - intros _. split; [by intros [? _] | eauto].
Qed.

Lemma fifo_ingest_fails_iff_queue_full_witness :
  let o := mkOpts labelOf false true true 1 in
  let st := mkState ∅ true {[ "a" ]} {[ "a" := [a1] ]} in
  sync_reduce never o push ab st [] a2
  = (st, Throw (IllegalState (overflowMsg o "a"))).
Proof.
  intros o st.
  apply (fifo_ingest_fails_iff_queue_full never o push [Ingest a1] ab ab st [] [] a2);
    [reflexivity | vm_compute; reflexivity |].
  split; [vm_compute; set_solver | vm_compute; discriminate].
Defined.



(** In bounded-FIFO mode the reset flag is never read: two configurations
    that differ in it only behave alike on every sequence of calls. *)
Theorem fifo_ignores_reset {T Acc : Type} (isReduced : Acc → bool)
    (opts : PartitionSyncOpts T) (rfn : Reducer Acc (gmap label T))
    (r : bool) (cs : list (call T)) (ks : gset label) (st : state T) (acc : Acc) :
  let opts' :=
    mkOpts (key opts) (mergeOnly opts) r (all opts) (backPressure opts) in
  mode opts = BoundedFifo →
  mode opts' = BoundedFifo
  ∧ exec isReduced opts' rfn cs ks st acc = exec isReduced opts rfn cs ks st acc.
Proof.
  intros opts' Hm. destruct opts as [kf mo rs al bp]. cbn in opts'.
  assert (Hm' : mode opts' = BoundedFifo) by exact Hm.
  split; [exact Hm' |].
  revert ks st acc. induction cs as [| c cs IH]; intros ks st acc; [done |].
  cbn [exec].
  assert (Hc : call1 isReduced opts' rfn c ks st acc
               = call1 isReduced (mkOpts kf mo rs al bp) rfn c ks st acc).
  { destruct c; cbn [call1]; [| | done].
    - unfold sync_reduce. by rewrite Hm, Hm'.
    - unfold sync_complete. by rewrite Hm, Hm'. }
  rewrite Hc.
  by destruct (call1 isReduced (mkOpts kf mo rs al bp) rfn c ks st acc)
    as [? [? []]].
Qed.

Lemma fifo_ignores_reset_witness :
  exec never (mkOpts labelOf false false true 2) push
    [Ingest a1; Ingest a2; Ingest b1; Complete] ab initState []
  = exec never (mkOpts labelOf false true true 2) push
      [Ingest a1; Ingest a2; Ingest b1; Complete] ab initState [].
Proof.
  apply (fifo_ignores_reset never (mkOpts labelOf false true true 2) push false).
  reflexivity.
Defined.

(** ** Whatever the calls and the changes of the label set *)






(** With reset=false and all=true, complete() after a source flushes the
    current tuple exactly when no tuple was emitted while ingesting;
    otherwise it emits nothing. *)
Theorem no_reset_complete_flushes_iff_nothing_emitted {T : Type}
    (isReduced : list (gmap label T) → bool) (opts : PartitionSyncOpts T)
    (ks ks' : gset label) (xs : list T) (st : state T)
    (out : list (gmap label T)) :
  mode opts = UnboundedLatest →
  reset opts = false → all opts = true →
  exec isReduced opts push (Ingest <$> xs) ks initState [] = (ks', (st, Ok out)) →
  (sync_complete opts push st out).2
  = Ok (if decide (out = []) then [curr st] else out).
Proof.
  intros Hm Hr Hall Hrun.
  assert (Hf : first st = true ↔ out = []).
  { eapply (feed_ind isReduced opts push ks []
              (λ _ st out, first st = true ↔ out = []));
      [done | | exact Hrun].
    intros _ y st1 out1 st2 out2 IH Hstep.
    destruct (sync_reduce_latest_cases isReduced opts ks st1 out1 y st2 out2 Hm Hstep)
      as [(_ & -> & ->) | [(_ & _ & _ & -> & ->) | (_ & _ & -> & ->)]];
      [done | done |].
    rewrite Hr. cbn [first]. split; [done |].
    intros H. by destruct out1. }
  unfold sync_complete. rewrite Hm. unfold complete_latest.
  rewrite Hr. cbn [andb negb orb].
  case_decide as Hout.
  - subst out. by rewrite (proj2 Hf).
  - destruct (first st); [by destruct Hout; apply Hf | done].
Qed.

Lemma no_reset_complete_flushes_iff_nothing_emitted_witness :
  let o := mkOpts labelOf false false true 0 in
  ∃ st out,
    exec never o push (Ingest <$> [a1; a2]) ab initState [] = (ab, (st, Ok out))
    ∧ (sync_complete o push st out).2
      = Ok (if decide (out = []) then [curr st] else out).
Proof.
  intros o.
  destruct (exec never o push (Ingest <$> [a1; a2]) ab initState [])
    as [ks' [st [out | e |]]] eqn:Hrun; [| by vm_compute in Hrun ..].
  assert (Hks : ks' = ab)
    by (apply (f_equal fst) in Hrun; vm_compute in Hrun; by subst ks').
  subst ks'. exists st, out. split; [reflexivity |].
  apply (no_reset_complete_flushes_iff_nothing_emitted never o ab ab [a1; a2] st out);
    [reflexivity | reflexivity | reflexivity | exact Hrun].
Defined.

(** Values whose label is not required leave no trace: dropping them from
    the source changes nothing, in either mode and from any state. *)
Theorem values_outside_labels_are_skipped {T Acc : Type} (isReduced : Acc → bool)
    (opts : PartitionSyncOpts T) (rfn : Reducer Acc (gmap label T))
    (ks : gset label) (xs : list T) (st : state T) (acc : Acc) :
  exec isReduced opts rfn (Ingest <$> xs) ks st acc
  = exec isReduced opts rfn (Ingest <$> filter (λ x, key opts x ∈ ks) xs) ks st acc.
Proof.
  revert st acc. induction xs as [| x xs IH]; intros st acc; [done |].
  rewrite filter_cons. case_decide as Hk.
  - cbn [fmap list_fmap exec call1].
    destruct (sync_reduce isReduced opts rfn ks st acc x) as [st1 [acc1 | e |]];
      [apply IH | done ..].
  - cbn [fmap list_fmap exec call1]. rewrite sync_reduce_outside by done.
    apply IH.
Qed.
